(** * Token grouping and punctuation merging of [api/index.py]

    A shallow embedding of the two pure functions of the service,
    [get_group] and [combine_with_punctuation], together with the table
    [DELAY_GROUPS] they read.  The spaCy document is a list of tokens;
    of a token only the three attributes the code reads are kept. *)

From Stdlib Require Import String Ascii List ZArith Bool Lia Permutation.
Import ListNotations.

Local Open Scope list_scope.
Local Open Scope string_scope.

(** ** Python values *)

(** [if s:] on a [str]: the empty string is false, every other is true. *)
Definition truthy (s : string) : bool := negb (s =? "").

(** [x in xs] on a list of [str]. *)
Definition py_in (x : string) (xs : list string) : bool :=
  existsb (String.eqb x) xs.

(** A [dict] with [str] keys keeps insertion order; [items()] walks it in
    that order. *)
Definition dict (V : Type) : Type := list (string * V).

Fixpoint dict_find {V : Type} (d : dict V) (k : string) : option V :=
  match d with
  | [] => None
  | (k', v) :: d' => if k =? k' then Some v else dict_find d' k
  end.

(** [d[k]] for a key that is present; the only subscript of the program is
    the literal ['punctuation'], see [DELAY_GROUPS_punctuation]. *)
Definition dict_get (d : dict (list string)) (k : string) : list string :=
  match dict_find d k with
  | Some v => v
  | None => []
  end.

(** [enumerate(xs)], counting from [i]. *)
Fixpoint enumerate_from {A : Type} (i : Z) (xs : list A) : list (Z * A) :=
  match xs with
  | [] => []
  | x :: xs' => (i, x) :: enumerate_from (i + 1) xs'
  end.

Definition enumerate {A : Type} (xs : list A) : list (Z * A) :=
  enumerate_from 0 xs.

Definition len {A : Type} (xs : list A) : Z := Z.of_nat (length xs).

(** Concatenation of a sequence of texts, in order. *)
Definition concat_texts (ts : list string) : string :=
  fold_right String.append "" ts.

(** ** Tokens *)

(** The attributes of a spaCy token that the program reads: [token.text],
    [token.pos_] and [token.ent_type_] (empty when the token belongs to no
    entity). *)
Record Token : Type := mkToken {
  text : string;
  pos_ : string;
  ent_type_ : string
}.

Definition texts (doc : list Token) : list string := map text doc.

(** ** The table *)

Definition DELAY_GROUPS : dict (list string) :=
  [ ("named_entity", []);
    ("content", ["NOUN"; "PROPN"; "VERB"; "ADJ"; "INTJ"]);
    ("function", ["DET"; "PRON"; "ADP"; "AUX"; "CCONJ"; "SCONJ"]);
    ("modifier", ["ADV"; "NUM"]);
    ("punctuation", ["PUNCT"; "SPACE"; "SYM"]) ].

(** ** [get_group] *)

(** The [for group, tags in DELAY_GROUPS.items()] loop with its early
    [return], and the ['other'] that follows the loop. *)
Fixpoint first_group (items : dict (list string)) (pos_tag : string) : string :=
  match items with
  | [] => "other"
  | (group, tags) :: items' =>
      if py_in pos_tag tags then group else first_group items' pos_tag
  end.

Definition get_group (token : Token) : string :=
  if truthy (ent_type_ token) then "named_entity"
  else first_group DELAY_GROUPS (pos_ token).

(** ** [combine_with_punctuation] *)

(** The four local variables of the function.  [current_group] starts as
    [None], and so the list of groups holds optional labels. *)
Record State : Type := mkState {
  combined_tokens : list string;
  combined_groups : list (option string);
  current_token : string;
  current_group : option string
}.

Definition init : State := mkState [] [] "" None.

(** [combined_tokens.append(current_token)] and
    [combined_groups.append(current_group)]. *)
Definition flush (st : State) : State :=
  mkState (combined_tokens st ++ [current_token st])
          (combined_groups st ++ [current_group st])
          (current_token st) (current_group st).

Definition is_punct (token : Token) : bool :=
  py_in (pos_ token) (dict_get DELAY_GROUPS "punctuation").

(** The [if]/[else] on the tag of the token at the head of the loop body. *)
Definition absorb (st : State) (token : Token) : State :=
  if is_punct token then
    if truthy (current_token st) then
      mkState (combined_tokens st) (combined_groups st)
              (current_token st ++ text token) (current_group st)
    else
      mkState (combined_tokens st) (combined_groups st)
              (text token) (Some (get_group token))
  else
    let st' := if truthy (current_token st) then flush st else st in
    mkState (combined_tokens st') (combined_groups st')
            (text token) (Some (get_group token)).

(** One turn of the loop for the pair [(i, token)], [n] being [len(doc)]. *)
Definition step (n : Z) (st : State) (it : Z * Token) : State :=
  let '(i, token) := it in
  let st1 := absorb st token in
  if (i =? n - 1)%Z then flush st1 else st1.

Definition run (n : Z) (its : list (Z * Token)) (st : State) : State :=
  fold_left (step n) its st.

Definition combine_with_punctuation (doc : list Token)
  : list string * list (option string) :=
  let st := run (len doc) (enumerate doc) init in
  (combined_tokens st, combined_groups st).

(** The six labels a merged token can carry. *)
Definition labels : list string :=
  ["named_entity"; "content"; "function"; "modifier"; "punctuation"; "other"].

(** The longest run of punctuation-tagged tokens at the head of a
    sequence. *)
Fixpoint leading_punct (doc : list Token) : list Token :=
  match doc with
  | [] => []
  | t :: doc' => if is_punct t then t :: leading_punct doc' else []
  end.

(** ** The loop, by structure of the document

    [scan] is the loop with the test [i == len(doc) - 1] replaced by a
    match on what is left of the document; [run_scan] shows that the two
    agree, and every result below is proved on [scan]. *)

Fixpoint scan (rest : list Token) (st : State) : State :=
  match rest with
  | [] => st
  | t :: rest' =>
      match rest' with
      | [] => flush (absorb st t)
      | _ :: _ => scan rest' (absorb st t)
      end
  end.

(** The text seen so far: what has been flushed, then what is pending. *)
Definition seen (st : State) : string :=
  concat_texts (combined_tokens st) ++ current_token st.

(** One when a group is pending (the accumulator holds text), else zero. *)
Definition pending (st : State) : nat :=
  if truthy (current_token st) then 1 else 0.

(** A group entry that is one of the six labels (and so not [None]). *)
Definition labelled (g : option string) : Prop :=
  exists l : string, g = Some l /\ In l labels.

(** The invariant of the loop for the two output lists: they grow in
    lockstep, hold labels only, and a pending group has its label. *)
Definition lockstep (st : State) : Prop :=
  length (combined_tokens st) = length (combined_groups st) /\
  Forall labelled (combined_groups st) /\
  (current_token st <> "" -> labelled (current_group st)).

(** ** The loop without its last turn

    [absorbed doc] is the state once every token has been read and before
    the accumulator is appended for the last index. *)

Definition absorbed (doc : list Token) : State := fold_left absorb doc init.

(** The same state, with [p1] and [p2] already in the two output lists. *)
Definition prepend (p1 : list string) (p2 : list (option string))
    (st : State) : State :=
  mkState (p1 ++ combined_tokens st) (p2 ++ combined_groups st)
          (current_token st) (current_group st).

(** The tokens that open a group of their own after the first one: those
    whose tag is not a punctuation tag. *)
Definition words (doc : list Token) : list Token :=
  filter (fun t => negb (is_punct t)) doc.

(** No tag is listed under two keys of the table. *)
Definition disjoint_tags (items : dict (list string)) : Prop :=
  forall g1 l1 g2 l2 tag,
    In (g1, l1) items -> In (g2, l2) items ->
    In tag l1 -> In tag l2 -> g1 = g2.

(** ** The request handler [pos_tag]

    What [request.get_json()] returns: a JSON value as Python has it.  Of a
    float only its truth value is kept, the handler reads nothing else of
    it.  The characters of a [str] are modelled by [ascii]. *)

#[local] Set Warnings "-register-all".

Inductive json : Type :=
  | JNull
  | JBool (b : bool)
  | JInt (z : Z)
  | JFloat (nonzero : bool)
  | JStr (s : string)
  | JList (items : list json)
  | JObj (fields : list (string * json)).

(** [bool(v)], the test of [if not data:]. *)
Definition py_bool (v : json) : bool :=
  match v with
  | JNull => false
  | JBool b => b
  | JInt z => negb (z =? 0)%Z
  | JFloat nonzero => nonzero
  | JStr s => truthy s
  | JList items => match items with [] => false | _ :: _ => true end
  | JObj fields => match fields with [] => false | _ :: _ => true end
  end.

(** [needle in hay] on two [str]: the substring test. *)
Fixpoint contains (needle hay : string) : bool :=
  String.prefix needle hay ||
  match hay with
  | EmptyString => false
  | String _ hay' => contains needle hay'
  end.

(** [key == v] for a [str] key and a JSON value. *)
Definition str_eq (key : string) (v : json) : bool :=
  match v with
  | JStr s => key =? s
  | _ => false
  end.

(** [key in data]: key membership in a dict, element membership in a list,
    substring test in a str; [None] is the [TypeError] of the other
    types. *)
Definition py_contains (data : json) (key : string) : option bool :=
  match data with
  | JObj fields =>
      Some (match dict_find fields key with Some _ => true | None => false end)
  | JList items => Some (existsb (str_eq key) items)
  | JStr s => Some (contains key s)
  | _ => None
  end.

(** [data[key]] with a [str] key: the value in a dict, [None] for the
    [KeyError] of a missing key and for the [TypeError] of every other
    type (a list and a str want an integer index). *)
Definition py_getitem (data : json) (key : string) : option json :=
  match data with
  | JObj fields => dict_find fields key
  | _ => None
  end.

(** The response of the handler: [jsonify] of one of the two dicts the
    handler builds, and the status code. *)
Inductive Payload : Type :=
  | Error (message : string)
  | Tagged (tokens : list string) (groups : list (option string)).

Definition Response : Type := (Payload * Z)%type.

Definition status (r : Response) : Z := snd r.

(** Exceptions inside the [try] block: [None] is any raised exception, all
    of them are caught by the one [except Exception]. *)
Definition bind {A B : Type} (m : option A) (f : A -> option B) : option B :=
  match m with
  | Some a => f a
  | None => None
  end.

Notation "x <- m ;; k" := (bind m (fun x => k))
  (at level 61, m at next level, right associativity).

Section Handler.

(** [str.isspace] on one character. *)
Variable isspace : ascii -> bool.

(** The spaCy pipeline: the document of a text, or [None] when it
    raises. *)
Variable nlp : string -> option (list Token).

Fixpoint lstrip (s : string) : string :=
  match s with
  | EmptyString => EmptyString
  | String c s' => if isspace c then lstrip s' else s
  end.

Fixpoint rstrip (s : string) : string :=
  match s with
  | EmptyString => EmptyString
  | String c s' =>
      match rstrip s' with
      | EmptyString => if isspace c then EmptyString else String c EmptyString
      | String _ _ as r => String c r
      end
  end.

(** [s.strip()]. *)
Definition strip (s : string) : string := rstrip (lstrip s).

(** [text.strip()] on a JSON value: only a [str] has the method, the
    other types raise [AttributeError]. *)
Definition py_strip (v : json) : option string :=
  match v with
  | JStr s => Some (strip s)
  | _ => None
  end.

(** [nlp(text)], reached with a [str] only. *)
Definition py_nlp (v : json) : option (list Token) :=
  match v with
  | JStr s => nlp s
  | _ => None
  end.

(** The [try] block; [req] is the outcome of [request.get_json()]. *)
Definition pos_tag_try (req : option json) : option Response :=
  data <- req ;;
  if negb (py_bool data) then
    Some (Error "No JSON data provided", 400%Z)
  else
    has_text <- py_contains data "text" ;;
    if negb has_text then
      Some (Error "Please provide text in the request body", 400%Z)
    else
      text <- py_getitem data "text" ;;
      stripped <- py_strip text ;;
      if negb (truthy stripped) then
        Some (Error "Text cannot be empty", 400%Z)
      else
        doc <- py_nlp text ;;
        let '(tokens, groups) := combine_with_punctuation doc in
        Some (Tagged tokens groups, 200%Z).

Definition pos_tag (req : option json) : Response :=
  match pos_tag_try req with
  | Some r => r
  | None => (Error "Internal server error", 500%Z)
  end.

End Handler.

(** Every character of the text is white space. *)
Definition blank (isspace : ascii -> bool) (s : string) : Prop :=
  Forall (fun c => isspace c = true) (list_ascii_of_string s).

(** [str.isspace] on the characters below 128: the space, the controls
    tab to carriage return and the four separators 28 to 31. *)
Definition ascii_isspace (c : ascii) : bool :=
  let n := nat_of_ascii c in
  (n =? 32)%nat || ((9 <=? n)%nat && (n <=? 13)%nat)
  || ((28 <=? n)%nat && (n <=? 31)%nat).

(** A pipeline to run the handler on: the whole text as one noun. *)
Definition one_token_nlp (s : string) : option (list Token) :=
  Some [mkToken s "NOUN" ""].

(** ** Strings and membership *)

Lemma append_nil_r (s : string) : s ++ "" = s.
Proof. induction s as [|c s IH]; simpl; [reflexivity | now rewrite IH]. Qed.

Lemma append_assoc (s1 s2 s3 : string) : (s1 ++ s2) ++ s3 = s1 ++ (s2 ++ s3).
Proof. induction s1 as [|c s1 IH]; simpl; [reflexivity | now rewrite IH]. Qed.

Lemma append_nonempty_l (s1 s2 : string) : s1 <> "" -> s1 ++ s2 <> "".
Proof. destruct s1; simpl; [congruence | discriminate]. Qed.

Lemma truthy_true (s : string) : truthy s = true <-> s <> "".
Proof.
  unfold truthy. rewrite negb_true_iff. apply String.eqb_neq.
Qed.

Lemma truthy_false (s : string) : truthy s = false <-> s = "".
Proof.
  unfold truthy. rewrite negb_false_iff. apply String.eqb_eq.
Qed.

Lemma py_in_In (x : string) (xs : list string) : py_in x xs = true <-> In x xs.
Proof.
  unfold py_in. rewrite existsb_exists. split.
  - intros [y [Hy Heq]]. apply String.eqb_eq in Heq. now subst.
  - intros H. exists x. split; [assumption | apply String.eqb_refl].
Qed.

Lemma py_in_not_In (x : string) (xs : list string) :
  py_in x xs = false <-> ~ In x xs.
Proof.
  rewrite <- py_in_In. destruct (py_in x xs); split; congruence.
Qed.

Lemma DELAY_GROUPS_punctuation :
  dict_find DELAY_GROUPS "punctuation" = Some ["PUNCT"; "SPACE"; "SYM"].
Proof. reflexivity. Qed.

Lemma is_punct_In (t : Token) :
  is_punct t = true <-> In (pos_ t) ["PUNCT"; "SPACE"; "SYM"].
Proof. unfold is_punct. apply py_in_In. Qed.

Lemma concat_texts_app (l1 l2 : list string) :
  concat_texts (l1 ++ l2) = concat_texts l1 ++ concat_texts l2.
Proof.
  induction l1 as [|s l1 IH]; simpl; [reflexivity |].
  now rewrite IH, append_assoc.
Qed.

Lemma concat_texts_snoc (l : list string) (s : string) :
  concat_texts (l ++ [s]) = concat_texts l ++ s.
Proof. rewrite concat_texts_app. simpl. now rewrite append_nil_r. Qed.

(** ** The classifier *)

(** C2: a token whose entity type is set is classified ['named_entity'],
    whatever its part-of-speech tag, punctuation tags included. *)
Theorem get_group_named_entity (token : Token) :
  ent_type_ token <> "" -> get_group token = "named_entity".
Proof.
  intros H. unfold get_group.
  apply truthy_true in H. now rewrite H.
Qed.

Lemma get_group_named_entity_witness :
  ent_type_ (mkToken "." "PUNCT" "ORG") <> "" /\
  get_group (mkToken "." "PUNCT" "ORG") = "named_entity".
Proof.
  split; [discriminate | apply get_group_named_entity; discriminate].
Defined.

(** C3: a token that belongs to no entity gets the category of the rule
    table: ['content'] for NOUN, PROPN, VERB, ADJ, INTJ; ['function'] for
    DET, PRON, ADP, AUX, CCONJ, SCONJ; ['modifier'] for ADV, NUM;
    ['punctuation'] for PUNCT, SPACE, SYM; ['other'] for a tag in none of
    these sets. *)
Theorem get_group_rule_table (token : Token) :
  ent_type_ token = "" ->
  (In (pos_ token) ["NOUN"; "PROPN"; "VERB"; "ADJ"; "INTJ"] ->
     get_group token = "content") /\
  (In (pos_ token) ["DET"; "PRON"; "ADP"; "AUX"; "CCONJ"; "SCONJ"] ->
     get_group token = "function") /\
  (In (pos_ token) ["ADV"; "NUM"] -> get_group token = "modifier") /\
  (In (pos_ token) ["PUNCT"; "SPACE"; "SYM"] ->
     get_group token = "punctuation") /\
  (~ In (pos_ token)
       ["NOUN"; "PROPN"; "VERB"; "ADJ"; "INTJ";
        "DET"; "PRON"; "ADP"; "AUX"; "CCONJ"; "SCONJ";
        "ADV"; "NUM"; "PUNCT"; "SPACE"; "SYM"] ->
     get_group token = "other").
Proof.
  intros Hent. unfold get_group. rewrite Hent. cbn [truthy String.eqb negb].
  repeat split; intros H.
  - simpl in H. intuition (subst; try contradiction);
      match goal with E : _ = pos_ token |- _ => rewrite <- E; reflexivity end.
  - simpl in H. intuition (subst; try contradiction);
      match goal with E : _ = pos_ token |- _ => rewrite <- E; reflexivity end.
  - simpl in H. intuition (subst; try contradiction);
      match goal with E : _ = pos_ token |- _ => rewrite <- E; reflexivity end.
  - simpl in H. intuition (subst; try contradiction);
      match goal with E : _ = pos_ token |- _ => rewrite <- E; reflexivity end.
  - unfold DELAY_GROUPS, first_group.
    assert (Hn : forall l,
               (forall x, In x l -> In x
                  ["NOUN"; "PROPN"; "VERB"; "ADJ"; "INTJ";
                   "DET"; "PRON"; "ADP"; "AUX"; "CCONJ"; "SCONJ";
                   "ADV"; "NUM"; "PUNCT"; "SPACE"; "SYM"]) ->
               py_in (pos_ token) l = false).
    { intros l Hl. apply py_in_not_In. intros Hin. apply H, Hl, Hin. }
    rewrite !Hn; [reflexivity | | | | |]; intros x Hx; simpl in Hx |- *; tauto.
Qed.

Lemma get_group_rule_table_witness :
  ent_type_ (mkToken "cat" "NOUN" "") = "" /\
  get_group (mkToken "cat" "NOUN" "") = "content".
Proof.
  split; [reflexivity |].
  apply (get_group_rule_table (mkToken "cat" "NOUN" "") eq_refl).
  simpl. left. reflexivity.
Defined.

(** ** The loop and its structural form agree *)

Lemma len_cons {A : Type} (x : A) (xs : list A) : len (x :: xs) = (len xs + 1)%Z.
Proof. unfold len. simpl length. lia. Qed.

Lemma len_nonneg {A : Type} (xs : list A) : (0 <= len xs)%Z.
Proof. unfold len. lia. Qed.

Lemma len_app {A : Type} (xs ys : list A) : len (xs ++ ys) = (len xs + len ys)%Z.
Proof. unfold len. rewrite length_app. lia. Qed.

Lemma run_scan (n : Z) (rest : list Token) :
  forall (i : Z) (st : State),
    (i + len rest = n)%Z ->
    run n (enumerate_from i rest) st = scan rest st.
Proof.
  induction rest as [|t rest IH]; intros i st Hn; [reflexivity |].
  rewrite len_cons in Hn.
  change (run n (enumerate_from i (t :: rest)) st)
    with (run n (enumerate_from (i + 1) rest) (step n st (i, t))).
  destruct rest as [|u rest'].
  - unfold step, len in *. simpl length in Hn.
    replace (i =? n - 1)%Z with true by (symmetry; apply Z.eqb_eq; lia).
    reflexivity.
  - rewrite IH by lia.
    unfold step. rewrite len_cons in Hn. pose proof (len_nonneg rest').
    replace (i =? n - 1)%Z with false by (symmetry; apply Z.eqb_neq; lia).
    reflexivity.
Qed.

Lemma combine_scan (doc : list Token) :
  combine_with_punctuation doc =
  (combined_tokens (scan doc init), combined_groups (scan doc init)).
Proof.
  unfold combine_with_punctuation, enumerate.
  rewrite run_scan by lia. reflexivity.
Qed.

(** A strict prefix of the document never meets the last index: there the
    loop only absorbs. *)
Lemma run_prefix (n : Z) (pre : list Token) :
  forall (i : Z) (st : State),
    (i + len pre < n)%Z ->
    run n (enumerate_from i pre) st = fold_left absorb pre st.
Proof.
  induction pre as [|t pre IH]; intros i st Hn; [reflexivity |].
  rewrite len_cons in Hn. pose proof (len_nonneg pre).
  change (run n (enumerate_from i (t :: pre)) st)
    with (run n (enumerate_from (i + 1) pre) (step n st (i, t))).
  rewrite IH by lia. unfold step.
  replace (i =? n - 1)%Z with false by (symmetry; apply Z.eqb_neq; lia).
  reflexivity.
Qed.

Lemma enumerate_from_app {A : Type} (xs ys : list A) :
  forall i : Z,
    enumerate_from i (xs ++ ys) =
    (enumerate_from i xs ++ enumerate_from (i + len xs) ys)%list.
Proof.
  induction xs as [|x xs IH]; intros i; simpl.
  - unfold len. simpl. now rewrite Z.add_0_r.
  - rewrite IH, len_cons. do 3 f_equal. lia.
Qed.

Lemma run_app (n : Z) (pre suf : list Token) (i : Z) (st : State) :
  run n (enumerate_from i (pre ++ suf)) st =
  run n (enumerate_from (i + len pre) suf) (run n (enumerate_from i pre) st).
Proof.
  unfold run. now rewrite enumerate_from_app, fold_left_app.
Qed.

(** ** What one token does to the state *)

Lemma absorb_cases (st : State) (t : Token) :
  (is_punct t = true /\ current_token st <> "" /\
   absorb st t = mkState (combined_tokens st) (combined_groups st)
                         (current_token st ++ text t) (current_group st)) \/
  (current_token st = "" /\
   absorb st t = mkState (combined_tokens st) (combined_groups st)
                         (text t) (Some (get_group t))) \/
  (is_punct t = false /\ current_token st <> "" /\
   absorb st t = mkState (combined_tokens st ++ [current_token st])
                         (combined_groups st ++ [current_group st])
                         (text t) (Some (get_group t))).
Proof.
  unfold absorb.
  destruct (is_punct t); destruct (truthy (current_token st)) eqn:Hc.
  - left. apply truthy_true in Hc. auto.
  - right; left. apply truthy_false in Hc. auto.
  - right; right. apply truthy_true in Hc. auto.
  - right; left. apply truthy_false in Hc. auto.
Qed.

Lemma absorb_seen (st : State) (t : Token) :
  seen (absorb st t) = seen st ++ text t.
Proof.
  unfold seen.
  destruct (absorb_cases st t) as [[_ [_ E]] | [[Hc E] | [_ [_ E]]]];
    rewrite E; cbn [combined_tokens current_token].
  - now rewrite append_assoc.
  - now rewrite Hc, append_nil_r.
  - now rewrite concat_texts_snoc.
Qed.

Lemma absorb_length (st : State) (t : Token) :
  length (combined_tokens (absorb st t)) <=
  length (combined_tokens st) + pending st.
Proof.
  unfold pending.
  destruct (absorb_cases st t) as [[_ [_ E]] | [[Hc E] | [_ [Hc E]]]];
    rewrite E; cbn [combined_tokens].
  - lia.
  - lia.
  - apply truthy_true in Hc. rewrite Hc, length_app. simpl. lia.
Qed.

Lemma pending_le_1 (st : State) : pending st <= 1.
Proof. unfold pending. destruct (truthy _); lia. Qed.

Lemma get_group_label (t : Token) : In (get_group t) labels.
Proof.
  unfold get_group. destruct (truthy (ent_type_ t)); [simpl; tauto |].
  unfold DELAY_GROUPS, first_group.
  repeat match goal with
         | |- In (if ?b then _ else _) _ => destruct b; [simpl; tauto |]
         end.
  simpl; tauto.
Qed.

Lemma labelled_get_group (t : Token) : labelled (Some (get_group t)).
Proof. exists (get_group t). split; [reflexivity | apply get_group_label]. Qed.

Lemma absorb_lockstep (st : State) (t : Token) :
  lockstep st ->
  lockstep (absorb st t) /\ labelled (current_group (absorb st t)).
Proof.
  intros (Hlen & Hall & Hcur).
  destruct (absorb_cases st t) as [[_ [Hc E]] | [[Hc E] | [_ [Hc E]]]];
    rewrite E; unfold lockstep;
    cbn [combined_tokens combined_groups current_token current_group].
  - auto.
  - auto using labelled_get_group.
  - repeat split.
    + rewrite !length_app. simpl. lia.
    + apply Forall_app. split; [assumption |]. constructor; auto.
    + intros _. apply labelled_get_group.
    + apply labelled_get_group.
Qed.

Lemma flush_lockstep (st : State) :
  lockstep st -> labelled (current_group st) -> lockstep (flush st).
Proof.
  intros (Hlen & Hall & Hcur) Hl. unfold lockstep, flush.
  cbn [combined_tokens combined_groups current_token current_group].
  repeat split.
  - rewrite !length_app. simpl. lia.
  - apply Forall_app. split; [assumption |]. constructor; auto.
  - auto.
Qed.

(** ** Invariants of the scan *)

Lemma scan_seen (rest : list Token) :
  forall st : State,
    rest <> [] ->
    concat_texts (combined_tokens (scan rest st)) =
    seen st ++ concat_texts (texts rest).
Proof.
  induction rest as [|t rest IH]; intros st Hne; [congruence |].
  destruct rest as [|u rest'].
  - cbn [scan flush combined_tokens texts map concat_texts fold_right].
    rewrite concat_texts_snoc, append_nil_r.
    apply absorb_seen.
  - change (scan (t :: u :: rest') st) with (scan (u :: rest') (absorb st t)).
    rewrite IH by discriminate.
    rewrite absorb_seen, append_assoc. reflexivity.
Qed.

Lemma scan_length (rest : list Token) :
  forall st : State,
    rest <> [] ->
    length (combined_tokens (scan rest st)) <=
    length (combined_tokens st) + pending st + length rest.
Proof.
  induction rest as [|t rest IH]; intros st Hne; [congruence |].
  pose proof (absorb_length st t) as Ha.
  destruct rest as [|u rest'].
  - cbn [scan flush combined_tokens]. rewrite length_app. simpl. lia.
  - change (scan (t :: u :: rest') st) with (scan (u :: rest') (absorb st t)).
    specialize (IH (absorb st t)).
    pose proof (pending_le_1 (absorb st t)).
    assert (u :: rest' <> []) as Hne' by discriminate.
    specialize (IH Hne'). simpl length in *. lia.
Qed.

Lemma scan_lockstep (rest : list Token) :
  forall st : State, lockstep st -> lockstep (scan rest st).
Proof.
  induction rest as [|t rest IH]; intros st Hst; [assumption |].
  destruct (absorb_lockstep st t Hst) as [Ha Hl].
  destruct rest as [|u rest'].
  - cbn [scan]. now apply flush_lockstep.
  - change (scan (t :: u :: rest') st) with (scan (u :: rest') (absorb st t)).
    now apply IH.
Qed.

Lemma scan_nonempty (rest : list Token) :
  forall st : State,
    rest <> [] ->
    combined_tokens (scan rest st) <> [] /\
    combined_groups (scan rest st) <> [].
Proof.
  induction rest as [|t rest IH]; intros st Hne; [congruence |].
  destruct rest as [|u rest'].
  - cbn [scan flush combined_tokens combined_groups].
    split; intros H; apply app_eq_nil in H; destruct H; discriminate.
  - change (scan (t :: u :: rest') st) with (scan (u :: rest') (absorb st t)).
    apply IH. discriminate.
Qed.

(** What has been flushed stays where it is. *)
Lemma absorb_extends (st : State) (t : Token) :
  exists e1 e2,
    combined_tokens (absorb st t) = (combined_tokens st ++ e1)%list /\
    combined_groups (absorb st t) = (combined_groups st ++ e2)%list.
Proof.
  destruct (absorb_cases st t) as [[_ [_ E]] | [[_ E] | [_ [_ E]]]];
    rewrite E; cbn [combined_tokens combined_groups].
  - exists [], []. now rewrite !app_nil_r.
  - exists [], []. now rewrite !app_nil_r.
  - eauto.
Qed.

Lemma scan_extends (rest : list Token) :
  forall st : State,
  exists e1 e2,
    combined_tokens (scan rest st) = (combined_tokens st ++ e1)%list /\
    combined_groups (scan rest st) = (combined_groups st ++ e2)%list.
Proof.
  induction rest as [|t rest IH]; intros st.
  - exists [], []. now rewrite !app_nil_r.
  - destruct (absorb_extends st t) as (a1 & a2 & Ha1 & Ha2).
    destruct rest as [|u rest'].
    + cbn [scan flush combined_tokens combined_groups].
      rewrite Ha1, Ha2, <- !app_assoc. eauto.
    + change (scan (t :: u :: rest') st) with (scan (u :: rest') (absorb st t)).
      destruct (IH (absorb st t)) as (e1 & e2 & He1 & He2).
      rewrite He1, He2, Ha1, Ha2, <- !app_assoc. eauto.
Qed.

(** ** A group that is open *)

Lemma nth_error_after {A : Type} (l e : list A) (x : A) :
  nth_error ((l ++ [x]) ++ e) (length l) = Some x.
Proof.
  rewrite <- app_assoc, nth_error_app2 by lia.
  now rewrite Nat.sub_diag.
Qed.

Lemma nth_error_last {A : Type} (l : list A) (x : A) :
  nth_error (l ++ [x]) (length l) = Some x.
Proof.
  rewrite nth_error_app2 by lia. now rewrite Nat.sub_diag.
Qed.

(** Once the accumulator holds text, the punctuation that follows is
    attached to it, and the group leaves with the label it was opened
    with, at the next free position of the output. *)
Lemma scan_open_group (rest : list Token) :
  forall st : State,
    rest <> [] ->
    current_token st <> "" ->
    nth_error (combined_tokens (scan rest st)) (length (combined_tokens st)) =
      Some (current_token st ++ concat_texts (texts (leading_punct rest))) /\
    nth_error (combined_groups (scan rest st)) (length (combined_groups st)) =
      Some (current_group st).
Proof.
  induction rest as [|t rest IH]; intros st Hne Hcur; [congruence |].
  destruct (absorb_cases st t) as [[Hp [_ E]] | [[Hc _] | [Hp [_ E]]]];
    [| congruence |].
  - (* punctuation joins the open group *)
    cbn [leading_punct]. rewrite Hp.
    cbn [texts map concat_texts fold_right]. fold (texts (leading_punct rest)).
    fold (concat_texts (texts (leading_punct rest))).
    destruct rest as [|u rest'].
    + cbn [scan flush combined_tokens combined_groups]. rewrite E.
      cbn [combined_tokens combined_groups current_token current_group
           leading_punct texts map concat_texts fold_right].
      rewrite append_nil_r. split; apply nth_error_last.
    + change (scan (t :: u :: rest') st) with (scan (u :: rest') (absorb st t)).
      rewrite E.
      match goal with
      | |- context [scan _ ?s] => destruct (IH s) as [H1 H2]
      end; [discriminate | now apply append_nonempty_l |].
      cbn [combined_tokens combined_groups current_token current_group]
        in H1, H2.
      rewrite H1, H2, append_assoc. split; reflexivity.
  - (* another token closes it *)
    cbn [leading_punct]. rewrite Hp.
    cbn [texts map concat_texts fold_right]. rewrite append_nil_r.
    destruct rest as [|u rest'].
    + cbn [scan flush combined_tokens combined_groups]. rewrite E.
      cbn [combined_tokens combined_groups].
      split; apply (nth_error_after _ [_]).
    + change (scan (t :: u :: rest') st) with (scan (u :: rest') (absorb st t)).
      destruct (scan_extends (u :: rest') (absorb st t))
        as (e1 & e2 & He1 & He2).
      rewrite He1, He2, E. cbn [combined_tokens combined_groups].
      split; apply nth_error_after.
Qed.

(** A run of punctuation up to the end of the document is attached whole
    to the open group. *)
Lemma scan_punct_run (ps : list Token) :
  forall st : State,
    ps <> [] ->
    Forall (fun t => is_punct t = true) ps ->
    current_token st <> "" ->
    scan ps st =
    flush (mkState (combined_tokens st) (combined_groups st)
                   (current_token st ++ concat_texts (texts ps))
                   (current_group st)).
Proof.
  induction ps as [|t ps IH]; intros st Hne Hall Hcur; [congruence |].
  inversion Hall as [|? ? Hp Hall']; subst.
  destruct (absorb_cases st t) as [[_ [_ E]] | [[Hc _] | [Hp' _]]];
    [| congruence | congruence].
  destruct ps as [|u ps'].
  - cbn [scan texts map concat_texts fold_right].
    now rewrite E, append_nil_r.
  - change (scan (t :: u :: ps') st) with (scan (u :: ps') (absorb st t)).
    rewrite IH; [| discriminate | assumption |
                 rewrite E; now apply append_nonempty_l].
    rewrite E. cbn [combined_tokens combined_groups current_token current_group].
    now rewrite append_assoc.
Qed.

(** ** The merger *)

(** C1: the texts of the merged tokens, concatenated in output order, are
    the texts of the input tokens concatenated in input order. *)
Theorem combine_preserves_text (doc : list Token) :
  concat_texts (fst (combine_with_punctuation doc)) = concat_texts (texts doc).
Proof.
  rewrite combine_scan. cbn [fst].
  destruct doc as [|t doc]; [reflexivity |].
  rewrite scan_seen by discriminate. reflexivity.
Qed.

(** C5: the tokens The/DET, cat/NOUN, sat/VERB and ./PUNCT, none of them in
    an entity, give The/function, cat/content and sat./content. *)
Theorem combine_the_cat_sat :
  combine_with_punctuation
    [ mkToken "The" "DET" ""; mkToken "cat" "NOUN" "";
      mkToken "sat" "VERB" ""; mkToken "." "PUNCT" "" ] =
  ( ["The"; "cat"; "sat."],
    [Some "function"; Some "content"; Some "content"] ).
Proof. reflexivity. Qed.

(** C6: a non-empty document of punctuation-tagged tokens only (PUNCT,
    SPACE or SYM) gives one merged token: its text is all the texts
    concatenated, its category the classification of the first token.
    Token texts are non-empty; of this only the first token's text is
    used. *)
Theorem combine_all_punctuation (first : Token) (others : list Token) :
  Forall (fun t => In (pos_ t) ["PUNCT"; "SPACE"; "SYM"]) (first :: others) ->
  text first <> "" ->
  combine_with_punctuation (first :: others) =
  ( [concat_texts (texts (first :: others))], [Some (get_group first)] ).
Proof.
  intros Hall Htext. rewrite combine_scan.
  assert (Hall' : Forall (fun t => is_punct t = true) (first :: others)).
  { eapply Forall_impl; [| exact Hall]. intros t Ht. now apply is_punct_In. }
  inversion Hall' as [|? ? Hp Hothers]; subst.
  assert (E : absorb init first =
              mkState [] [] (text first) (Some (get_group first))).
  { unfold absorb. now rewrite Hp. }
  destruct others as [|u others'].
  - cbn [scan]. rewrite E.
    cbn [flush combined_tokens combined_groups current_token current_group
         texts map concat_texts fold_right app].
    now rewrite append_nil_r.
  - change (scan (first :: u :: others') init)
      with (scan (u :: others') (absorb init first)).
    rewrite E, scan_punct_run; [reflexivity | discriminate | assumption |].
    exact Htext.
Qed.

Lemma combine_all_punctuation_witness :
  combine_with_punctuation
    [mkToken "." "PUNCT" ""; mkToken " " "SPACE" ""; mkToken "$" "SYM" ""] =
  ( [". $"], [Some "punctuation"] ).
Proof.
  apply (combine_all_punctuation (mkToken "." "PUNCT" "")
           [mkToken " " "SPACE" ""; mkToken "$" "SYM" ""]).
  - repeat constructor; simpl; tauto.
  - discriminate.
Defined.

(** The non-empty text of the first token matters to the previous result:
    a first token with an empty text leaves the accumulator empty, and the
    category is taken from the token after it. *)
Remark combine_empty_text_first :
  combine_with_punctuation
    [mkToken "" "PUNCT" ""; mkToken "!" "PUNCT" "ORG"] =
  ( ["!"], [Some "named_entity"] ).
Proof. reflexivity. Qed.

(** Punctuation after an entity token joins it and keeps its category. *)
Example combine_paris_france :
  combine_with_punctuation
    [ mkToken "Paris" "PROPN" "GPE"; mkToken "," "PUNCT" "";
      mkToken "France" "PROPN" "GPE" ] =
  ( ["Paris,"; "France"], [Some "named_entity"; Some "named_entity"] ).
Proof. reflexivity. Qed.

(** Punctuation at the head of the document is a group of its own. *)
Example combine_leading_punctuation :
  combine_with_punctuation
    [mkToken "!" "PUNCT" ""; mkToken "Wow" "INTJ" ""] =
  ( ["!"; "Wow"], [Some "punctuation"; Some "content"] ).
Proof. reflexivity. Qed.

(** C7: the empty document gives the empty output; no flush happens when
    the loop body never runs. *)
Theorem combine_empty : combine_with_punctuation [] = ([], []).
Proof. reflexivity. Qed.

(** C8: there are at most as many merged tokens as input tokens. *)
Theorem combine_length_le (doc : list Token) :
  length (fst (combine_with_punctuation doc)) <= length doc.
Proof.
  rewrite combine_scan. cbn [fst].
  destruct doc as [|t doc]; [simpl; lia |].
  pose proof (scan_length (t :: doc) init ltac:(discriminate)) as H.
  exact H.
Qed.

(** C9: the list of merged texts and the list of categories have the same
    length, and every category is one of ['named_entity'], ['content'],
    ['function'], ['modifier'], ['punctuation'], ['other']. *)
Theorem combine_parallel_labels (doc : list Token) :
  length (fst (combine_with_punctuation doc)) =
  length (snd (combine_with_punctuation doc)) /\
  Forall (fun g => exists l, g = Some l /\
            In l ["named_entity"; "content"; "function";
                  "modifier"; "punctuation"; "other"])
         (snd (combine_with_punctuation doc)).
Proof.
  rewrite combine_scan. cbn [fst snd].
  assert (Hinit : lockstep init).
  { unfold lockstep, init. cbn. repeat split; [constructor | congruence]. }
  destruct (scan_lockstep doc init Hinit) as (Hlen & Hall & _).
  split; assumption.
Qed.

(** C10: a non-empty document gives a non-empty output, since the turn of
    the loop for the last index always appends the accumulator. *)
Theorem combine_nonempty (doc : list Token) :
  doc <> [] ->
  fst (combine_with_punctuation doc) <> [] /\
  snd (combine_with_punctuation doc) <> [].
Proof.
  intros Hne. rewrite combine_scan. cbn [fst snd].
  now apply scan_nonempty.
Qed.

Lemma combine_nonempty_witness :
  [mkToken "Run" "VERB" ""] <> [] /\
  fst (combine_with_punctuation [mkToken "Run" "VERB" ""]) <> [] /\
  snd (combine_with_punctuation [mkToken "Run" "VERB" ""]) <> [].
Proof.
  split; [discriminate |].
  apply (combine_nonempty [mkToken "Run" "VERB" ""]). discriminate.
Defined.

(** C4: a punctuation-tagged token (PUNCT, SPACE or SYM) that belongs to an
    entity and arrives while the accumulator is empty opens a group, and
    the merged token of that group has the category ['named_entity'].
    [pre] is what the loop has read before the token, [rest] what follows;
    the group leaves at the first free position of the output, with the
    token's text and the punctuation that follows it. *)
Theorem combine_entity_punct_opens_group (pre : list Token) (t : Token)
    (rest : list Token) :
  let doc := (pre ++ t :: rest)%list in
  let st := run (len doc) (enumerate pre) init in
  current_token st = "" ->
  In (pos_ t) ["PUNCT"; "SPACE"; "SYM"] ->
  ent_type_ t <> "" ->
  text t <> "" ->
  nth_error (snd (combine_with_punctuation doc))
            (length (combined_groups st)) = Some (Some "named_entity") /\
  nth_error (fst (combine_with_punctuation doc))
            (length (combined_tokens st)) =
    Some (text t ++ concat_texts (texts (leading_punct rest))).
Proof.
  intros doc st Hacc Hpos Hent Htext.
  assert (Hrun : combine_with_punctuation doc =
                 (combined_tokens (scan (t :: rest) st),
                  combined_groups (scan (t :: rest) st))).
  { unfold combine_with_punctuation, enumerate, doc.
    rewrite run_app, run_scan; [reflexivity |].
    rewrite len_app. lia. }
  rewrite Hrun. cbn [fst snd]. clear Hrun.
  destruct (absorb_cases st t) as [[_ [Hc _]] | [[_ E] | [_ [Hc _]]]];
    [congruence | | congruence].
  assert (Hg : get_group t = "named_entity").
  { unfold get_group. apply truthy_true in Hent. now rewrite Hent. }
  rewrite Hg in E.
  destruct rest as [|u rest'].
  - cbn [scan]. rewrite E.
    cbn [flush combined_tokens combined_groups current_token current_group
         leading_punct texts map concat_texts fold_right].
    rewrite append_nil_r. split; apply nth_error_last.
  - change (scan (t :: u :: rest') st) with (scan (u :: rest') (absorb st t)).
    rewrite E.
    match goal with
    | |- context [scan _ ?s] =>
        destruct (scan_open_group (u :: rest') s) as [H1 H2]
    end; [discriminate | exact Htext |].
    cbn [combined_tokens combined_groups current_token current_group]
      in H1, H2.
    split; assumption.
Qed.

Lemma combine_entity_punct_opens_group_witness :
  nth_error
    (snd (combine_with_punctuation
            [mkToken "$" "SYM" "MONEY"; mkToken "." "PUNCT" "";
             mkToken "Wow" "INTJ" ""]))
    0 = Some (Some "named_entity") /\
  nth_error
    (fst (combine_with_punctuation
            [mkToken "$" "SYM" "MONEY"; mkToken "." "PUNCT" "";
             mkToken "Wow" "INTJ" ""]))
    0 = Some "$.".
Proof.
  apply (combine_entity_punct_opens_group []
           (mkToken "$" "SYM" "MONEY")
           [mkToken "." "PUNCT" ""; mkToken "Wow" "INTJ" ""]).
  - reflexivity.
  - simpl. tauto.
  - discriminate.
  - discriminate.
Defined.

(** ** The scan as one pass and one last append *)

Lemma scan_absorbed (rest : list Token) :
  forall st : State,
    rest <> [] -> scan rest st = flush (fold_left absorb rest st).
Proof.
  induction rest as [|t rest IH]; intros st Hne; [congruence |].
  destruct rest as [|u rest']; [reflexivity |].
  change (scan (t :: u :: rest') st) with (scan (u :: rest') (absorb st t)).
  rewrite IH by discriminate. reflexivity.
Qed.

Lemma combine_absorbed (doc : list Token) :
  doc <> [] ->
  combine_with_punctuation doc =
  (combined_tokens (absorbed doc) ++ [current_token (absorbed doc)],
   combined_groups (absorbed doc) ++ [current_group (absorbed doc)])%list.
Proof.
  intros Hne. rewrite combine_scan, scan_absorbed by assumption. reflexivity.
Qed.

Lemma absorb_prepend (p1 : list string) (p2 : list (option string))
    (st : State) (t : Token) :
  absorb (prepend p1 p2 st) t = prepend p1 p2 (absorb st t).
Proof.
  unfold absorb, prepend, flush.
  cbn [combined_tokens combined_groups current_token current_group].
  destruct (is_punct t); destruct (truthy (current_token st));
    cbn [combined_tokens combined_groups current_token current_group];
    rewrite ?app_assoc; reflexivity.
Qed.

Lemma fold_absorb_prepend (p1 : list string) (p2 : list (option string))
    (rest : list Token) :
  forall st : State,
    fold_left absorb rest (prepend p1 p2 st) =
    prepend p1 p2 (fold_left absorb rest st).
Proof.
  induction rest as [|t rest IH]; intros st; [reflexivity |].
  cbn [fold_left]. now rewrite absorb_prepend, IH.
Qed.

Lemma absorb_current_nonempty (st : State) (t : Token) :
  text t <> "" -> current_token (absorb st t) <> "".
Proof.
  intros Ht.
  destruct (absorb_cases st t) as [[_ [Hc E]] | [[_ E] | [_ [_ E]]]];
    rewrite E; cbn [current_token]; [| assumption | assumption].
  now apply append_nonempty_l.
Qed.

Lemma fold_absorb_current_nonempty (rest : list Token) :
  forall st : State,
    Forall (fun t => text t <> "") rest ->
    current_token st <> "" ->
    current_token (fold_left absorb rest st) <> "".
Proof.
  induction rest as [|t rest IH]; intros st Hall Hc; [assumption |].
  inversion Hall; subst. cbn [fold_left].
  apply IH; [assumption |]. now apply absorb_current_nonempty.
Qed.

Lemma absorbed_current_nonempty (doc : list Token) :
  doc <> [] ->
  Forall (fun t => text t <> "") doc ->
  current_token (absorbed doc) <> "".
Proof.
  intros Hne Hall. destruct doc as [|t doc]; [congruence |].
  inversion Hall; subst. unfold absorbed. cbn [fold_left].
  apply fold_absorb_current_nonempty; [assumption |].
  now apply absorb_current_nonempty.
Qed.

Lemma absorb_init (t : Token) :
  absorb init t = mkState [] [] (text t) (Some (get_group t)).
Proof.
  destruct (absorb_cases init t) as [[_ [Hc _]] | [[_ E] | [_ [Hc _]]]];
    [now contradiction Hc | exact E | now contradiction Hc].
Qed.

Lemma absorb_word (st : State) (t : Token) :
  is_punct t = false -> current_token st <> "" ->
  absorb st t = mkState (combined_tokens st ++ [current_token st])
                        (combined_groups st ++ [current_group st])
                        (text t) (Some (get_group t)).
Proof.
  intros Hp Hc.
  destruct (absorb_cases st t) as [[Hp' _] | [[Hc' _] | [_ [_ E]]]];
    congruence.
Qed.

Lemma absorb_punct (st : State) (t : Token) :
  is_punct t = true -> current_token st <> "" ->
  absorb st t = mkState (combined_tokens st) (combined_groups st)
                        (current_token st ++ text t) (current_group st).
Proof.
  intros Hp Hc.
  destruct (absorb_cases st t) as [[_ [_ E]] | [[Hc' _] | [Hp' _]]];
    congruence.
Qed.

Lemma get_group_word (t : Token) :
  is_punct t = false -> get_group t <> "punctuation".
Proof.
  intros Hp. unfold get_group.
  destruct (truthy (ent_type_ t)); [discriminate |].
  unfold DELAY_GROUPS, first_group.
  repeat match goal with
         | |- (if py_in _ ?l then ?g else _) <> _ =>
             first [ change (py_in (pos_ t) l) with (is_punct t); rewrite Hp
                   | destruct (py_in (pos_ t) l); [discriminate |] ]
         end.
  discriminate.
Qed.

(** ** Documents whose tokens have a text *)

Lemma fold_absorb_groups (rest : list Token) :
  forall st : State,
    Forall (fun t => text t <> "") rest ->
    current_token st <> "" ->
    (combined_groups (fold_left absorb rest st) ++
       [current_group (fold_left absorb rest st)])%list =
    (combined_groups st ++
       current_group st :: map (fun t => Some (get_group t)) (words rest))%list.
Proof.
  induction rest as [|t rest IH]; intros st Hall Hc; [reflexivity |].
  inversion Hall as [|? ? Ht Hall']; subst. cbn [fold_left].
  pose proof (absorb_current_nonempty st t Ht) as Hc'.
  rewrite (IH _ Hall' Hc'). unfold words. cbn [filter].
  destruct (is_punct t) eqn:Hp; cbn [negb].
  - now rewrite (absorb_punct st t Hp Hc).
  - rewrite (absorb_word st t Hp Hc).
    cbn [combined_groups current_group map]. now rewrite <- app_assoc.
Qed.

Lemma groups_first_then_words (t : Token) (rest : list Token) :
  Forall (fun t => text t <> "") (t :: rest) ->
  snd (combine_with_punctuation (t :: rest)) =
  Some (get_group t) :: map (fun t => Some (get_group t)) (words rest).
Proof.
  intros Hall. inversion Hall as [|? ? Ht Hall']; subst.
  rewrite combine_absorbed by discriminate. cbn [snd].
  unfold absorbed. cbn [fold_left].
  rewrite fold_absorb_groups;
    [| assumption | now apply absorb_current_nonempty].
  now rewrite absorb_init.
Qed.

Lemma fold_absorb_words (rest : list Token) :
  forall st : State,
    Forall (fun t => is_punct t = false) rest ->
    Forall (fun t => text t <> "") rest ->
    current_token st <> "" ->
    (combined_tokens (fold_left absorb rest st) ++
       [current_token (fold_left absorb rest st)])%list =
    (combined_tokens st ++ current_token st :: texts rest)%list.
Proof.
  induction rest as [|t rest IH]; intros st Hw Hall Hc; [reflexivity |].
  inversion Hw as [|? ? Hp Hw']; subst.
  inversion Hall as [|? ? Ht Hall']; subst. cbn [fold_left].
  rewrite (IH _ Hw' Hall' (absorb_current_nonempty st t Ht)).
  rewrite (absorb_word st t Hp Hc).
  cbn [combined_tokens current_token texts map]. now rewrite <- app_assoc.
Qed.

Lemma fold_absorb_texts_nonempty (rest : list Token) :
  forall st : State,
    Forall (fun t => text t <> "") rest ->
    Forall (fun s => s <> "") (combined_tokens st) ->
    current_token st <> "" ->
    Forall (fun s => s <> "") (combined_tokens (fold_left absorb rest st)).
Proof.
  induction rest as [|t rest IH]; intros st Hall Hout Hc; [assumption |].
  inversion Hall as [|? ? Ht Hall']; subst. cbn [fold_left].
  apply IH; [assumption | | now apply absorb_current_nonempty].
  destruct (absorb_cases st t) as [[_ [_ E]] | [[_ E] | [_ [_ E]]]];
    rewrite E; cbn [combined_tokens]; try assumption.
  apply Forall_app. split; [assumption | now constructor].
Qed.

(** The categories of the output are classifications of tokens of the
    document, whatever the texts are. *)
Lemma absorb_from_doc (doc : list Token) (st : State) (t : Token) :
  let from_doc := fun g => exists u, In u doc /\ g = Some (get_group u) in
  In t doc ->
  Forall from_doc (combined_groups st) ->
  (current_token st <> "" -> from_doc (current_group st)) ->
  Forall from_doc (combined_groups (absorb st t)) /\
  from_doc (current_group (absorb st t)).
Proof.
  intros from_doc Hin Hout Hcur.
  destruct (absorb_cases st t) as [[_ [Hc E]] | [[_ E] | [_ [Hc E]]]];
    rewrite E; cbn [combined_groups current_group].
  - auto.
  - split; [assumption | now exists t].
  - split; [| now exists t].
    apply Forall_app. split; [assumption |]. constructor; auto.
Qed.

Lemma fold_absorb_from_doc (doc rest : list Token) :
  let from_doc := fun g => exists u, In u doc /\ g = Some (get_group u) in
  forall st : State,
    incl rest doc ->
    Forall from_doc (combined_groups st) ->
    (current_token st <> "" -> from_doc (current_group st)) ->
    Forall from_doc (combined_groups (fold_left absorb rest st)) /\
    (rest <> [] -> from_doc (current_group (fold_left absorb rest st))).
Proof.
  intros from_doc. induction rest as [|t rest IH]; intros st Hincl Hout Hcur.
  - split; [assumption | congruence].
  - cbn [fold_left].
    assert (Hin : In t doc) by (apply Hincl; now left).
    destruct (absorb_from_doc doc st t Hin Hout Hcur) as [Ha Hb].
    destruct (IH (absorb st t)) as [H1 H2];
      [intros x Hx; apply Hincl; now right | assumption | auto |].
    split; [assumption |]. intros _.
    destruct rest as [|u rest']; [exact Hb | apply H2; discriminate].
Qed.

(** ** More on the merger *)

(** X1: a document without punctuation-tagged tokens, every token with a
    text, comes back token for token: the merged texts are the token texts
    and the categories are the tokens' classifications. *)
Theorem combine_words_only (doc : list Token) :
  Forall (fun t => is_punct t = false) doc ->
  Forall (fun t => text t <> "") doc ->
  combine_with_punctuation doc =
  (texts doc, map (fun t => Some (get_group t)) doc).
Proof.
  intros Hw Hall. destruct doc as [|t doc]; [reflexivity |].
  inversion Hw as [|? ? Hp Hw']; subst.
  inversion Hall as [|? ? Ht Hall']; subst.
  assert (Hc : current_token (absorb init t) <> "")
    by now apply absorb_current_nonempty.
  rewrite combine_absorbed by discriminate. unfold absorbed. cbn [fold_left].
  rewrite (fold_absorb_words doc _ Hw' Hall' Hc).
  rewrite (fold_absorb_groups doc _ Hall' Hc).
  rewrite absorb_init. cbn [combined_tokens combined_groups current_token
                            current_group app texts map].
  assert (Hwords : words doc = doc).
  { unfold words. clear - Hw'. induction doc as [|u doc IH]; [reflexivity |].
    inversion Hw' as [|? ? Hu Hw'']; subst. cbn [filter].
    rewrite Hu. cbn [negb]. now rewrite IH. }
  now rewrite Hwords.
Qed.

Lemma combine_words_only_witness :
  combine_with_punctuation
    [mkToken "Dogs" "NOUN" ""; mkToken "bark" "VERB" ""] =
  (["Dogs"; "bark"], [Some "content"; Some "content"]).
Proof.
  apply (combine_words_only
           [mkToken "Dogs" "NOUN" ""; mkToken "bark" "VERB" ""]).
  - repeat constructor.
  - repeat constructor; discriminate.
Defined.

(** X2: when every token has a text, the categories of the output are the
    classification of the first token, then the classifications of the
    later tokens whose tag is not a punctuation tag, in order. *)
Theorem combine_groups_exact (t : Token) (rest : list Token) :
  Forall (fun t => text t <> "") (t :: rest) ->
  snd (combine_with_punctuation (t :: rest)) =
  Some (get_group t) :: map (fun t => Some (get_group t)) (words rest).
Proof. apply groups_first_then_words. Qed.

Lemma combine_groups_exact_witness :
  snd (combine_with_punctuation
         [mkToken "(" "PUNCT" ""; mkToken "Hi" "INTJ" "";
          mkToken "," "PUNCT" ""; mkToken "Bob" "PROPN" "PERSON"]) =
  [Some "punctuation"; Some "content"; Some "named_entity"].
Proof.
  apply (combine_groups_exact (mkToken "(" "PUNCT" "")
           [mkToken "Hi" "INTJ" ""; mkToken "," "PUNCT" "";
            mkToken "Bob" "PROPN" "PERSON"]).
  repeat constructor; discriminate.
Defined.

(** X3: when every token has a text, the number of merged tokens is one
    more than the number of tokens after the first whose tag is not a
    punctuation tag. *)
Theorem combine_length_exact (t : Token) (rest : list Token) :
  Forall (fun t => text t <> "") (t :: rest) ->
  length (fst (combine_with_punctuation (t :: rest))) =
  S (length (words rest)).
Proof.
  intros Hall.
  pose proof (groups_first_then_words t rest Hall) as Hg.
  assert (Hinit : lockstep init).
  { unfold lockstep, init. cbn. repeat split; [constructor | congruence]. }
  destruct (scan_lockstep (t :: rest) init Hinit) as (Hlen & _ & _).
  rewrite combine_scan in Hg |- *. cbn [fst snd] in Hg |- *.
  rewrite Hlen, Hg. cbn [length]. now rewrite length_map.
Qed.

Lemma combine_length_exact_witness :
  length (fst (combine_with_punctuation
                 [mkToken "Hi" "INTJ" ""; mkToken "," "PUNCT" "";
                  mkToken "Bob" "PROPN" "PERSON"; mkToken "!" "PUNCT" ""])) =
  2.
Proof.
  apply (combine_length_exact (mkToken "Hi" "INTJ" "")
           [mkToken "," "PUNCT" ""; mkToken "Bob" "PROPN" "PERSON";
            mkToken "!" "PUNCT" ""]).
  repeat constructor; discriminate.
Defined.

(** X4: a document can be cut in front of any token whose tag is not a
    punctuation tag: when the tokens before the cut have a text, the
    output of the whole is the output of the part before the cut followed
    by the output of the part after it. *)
Theorem combine_app_word (doc1 : list Token) (u : Token) (rest : list Token) :
  Forall (fun t => text t <> "") doc1 ->
  is_punct u = false ->
  combine_with_punctuation (doc1 ++ u :: rest) =
  ((fst (combine_with_punctuation doc1) ++
      fst (combine_with_punctuation (u :: rest)))%list,
   (snd (combine_with_punctuation doc1) ++
      snd (combine_with_punctuation (u :: rest)))%list).
Proof.
  intros Hall Hu. destruct doc1 as [|t doc1].
  { cbn [app]. now destruct (combine_with_punctuation (u :: rest)). }
  set (d := t :: doc1) in *.
  assert (Hd : d <> []) by discriminate.
  pose proof (absorbed_current_nonempty d Hd Hall) as Hc.
  rewrite (combine_absorbed d Hd).
  rewrite (combine_absorbed (u :: rest)) by discriminate.
  rewrite (combine_absorbed (d ++ u :: rest))
    by (intros H; apply app_eq_nil in H; destruct H; discriminate).
  cbn [fst snd].
  assert (E : absorbed (d ++ u :: rest) =
              prepend (combined_tokens (absorbed d) ++ [current_token (absorbed d)])
                      (combined_groups (absorbed d) ++ [current_group (absorbed d)])
                      (absorbed (u :: rest))).
  { unfold absorbed at 1. rewrite fold_left_app. fold (absorbed d).
    cbn [fold_left]. rewrite (absorb_word (absorbed d) u Hu Hc).
    unfold absorbed. cbn [fold_left].
    rewrite absorb_init, <- fold_absorb_prepend. unfold prepend.
    cbn [combined_tokens combined_groups current_token current_group].
    now rewrite !app_nil_r. }
  rewrite E. unfold prepend.
  cbn [combined_tokens combined_groups current_token current_group].
  now rewrite <- !app_assoc.
Qed.

Lemma combine_app_word_witness :
  combine_with_punctuation
    ([mkToken "Hi" "INTJ" ""; mkToken "," "PUNCT" ""] ++
     mkToken "Bob" "PROPN" "PERSON" :: [mkToken "!" "PUNCT" ""]) =
  (["Hi,"; "Bob!"], [Some "content"; Some "named_entity"]).
Proof.
  apply (combine_app_word [mkToken "Hi" "INTJ" ""; mkToken "," "PUNCT" ""]
           (mkToken "Bob" "PROPN" "PERSON") [mkToken "!" "PUNCT" ""]).
  - repeat constructor; discriminate.
  - reflexivity.
Defined.

(** X5: a punctuation-tagged token added at the end of a non-empty
    document whose tokens have a text changes the last merged text only,
    by its own text at the end; the categories stay as they are. *)
Theorem combine_app_punct (doc : list Token) (p : Token) :
  doc <> [] ->
  Forall (fun t => text t <> "") doc ->
  is_punct p = true ->
  fst (combine_with_punctuation (doc ++ [p])) =
    (removelast (fst (combine_with_punctuation doc)) ++
     [(last (fst (combine_with_punctuation doc)) "" ++ text p)%string])%list /\
  snd (combine_with_punctuation (doc ++ [p])) =
    snd (combine_with_punctuation doc).
Proof.
  intros Hd Hall Hp.
  pose proof (absorbed_current_nonempty doc Hd Hall) as Hc.
  rewrite (combine_absorbed doc Hd).
  rewrite (combine_absorbed (doc ++ [p]))
    by (intros H; apply app_eq_nil in H; destruct H; discriminate).
  cbn [fst snd].
  assert (E : absorbed (doc ++ [p]) = absorb (absorbed doc) p).
  { unfold absorbed. now rewrite fold_left_app. }
  rewrite E, (absorb_punct (absorbed doc) p Hp Hc).
  cbn [combined_tokens combined_groups current_token current_group].
  now rewrite removelast_last, last_last.
Qed.

Lemma combine_app_punct_witness :
  fst (combine_with_punctuation
         ([mkToken "Hi" "INTJ" ""; mkToken "Bob" "PROPN" ""] ++
          [mkToken "!" "PUNCT" ""])) = ["Hi"; "Bob!"] /\
  snd (combine_with_punctuation
         ([mkToken "Hi" "INTJ" ""; mkToken "Bob" "PROPN" ""] ++
          [mkToken "!" "PUNCT" ""])) = [Some "content"; Some "content"].
Proof.
  apply (combine_app_punct [mkToken "Hi" "INTJ" ""; mkToken "Bob" "PROPN" ""]
           (mkToken "!" "PUNCT" "")).
  - discriminate.
  - repeat constructor; discriminate.
  - reflexivity.
Defined.

(** X6: when every token has a text, so has every merged token: no empty
    string is put in the output. *)
Theorem combine_texts_nonempty (doc : list Token) :
  Forall (fun t => text t <> "") doc ->
  Forall (fun s => s <> "") (fst (combine_with_punctuation doc)).
Proof.
  intros Hall. destruct doc as [|t doc]; [constructor |].
  rewrite combine_absorbed by discriminate. cbn [fst].
  apply Forall_app. split.
  - inversion Hall as [|? ? Ht Hall']; subst.
    unfold absorbed. cbn [fold_left].
    apply fold_absorb_texts_nonempty; [assumption | |].
    + rewrite absorb_init. constructor.
    + now apply absorb_current_nonempty.
  - constructor; [| constructor].
    apply absorbed_current_nonempty; [discriminate | assumption].
Qed.

Lemma combine_texts_nonempty_witness :
  Forall (fun s => s <> "")
    (fst (combine_with_punctuation
            [mkToken "Hi" "INTJ" ""; mkToken "!" "PUNCT" ""])).
Proof.
  apply (combine_texts_nonempty
           [mkToken "Hi" "INTJ" ""; mkToken "!" "PUNCT" ""]).
  repeat constructor; discriminate.
Defined.

(** X7: when every token has a text, only the first merged token can have
    the category ['punctuation']: every later group was opened by a token
    whose tag is not a punctuation tag. *)
Theorem combine_punctuation_first_only (doc : list Token) :
  Forall (fun t => text t <> "") doc ->
  Forall (fun g => g <> Some "punctuation")
         (tl (snd (combine_with_punctuation doc))).
Proof.
  intros Hall. destruct doc as [|t doc]; [constructor |].
  rewrite (groups_first_then_words t doc Hall). cbn [tl].
  apply Forall_map, Forall_forall. intros u Hu.
  apply filter_In in Hu. destruct Hu as [_ Hu].
  apply negb_true_iff in Hu.
  intros E. injection E as E. now apply (get_group_word u Hu).
Qed.

Lemma combine_punctuation_first_only_witness :
  Forall (fun g => g <> Some "punctuation")
    (tl (snd (combine_with_punctuation
                [mkToken "!" "PUNCT" ""; mkToken "Wow" "INTJ" "";
                 mkToken "." "PUNCT" ""]))).
Proof.
  apply (combine_punctuation_first_only
           [mkToken "!" "PUNCT" ""; mkToken "Wow" "INTJ" "";
            mkToken "." "PUNCT" ""]).
  repeat constructor; discriminate.
Defined.

(** X8: every category of the output is the classification of a token of
    the document; the [None] that [current_group] starts with is never
    returned, whatever the texts are. *)
Theorem combine_groups_from_doc (doc : list Token) :
  Forall (fun g => exists t, In t doc /\ g = Some (get_group t))
         (snd (combine_with_punctuation doc)).
Proof.
  destruct doc as [|t doc]; [constructor |].
  rewrite combine_absorbed by discriminate. cbn [snd]. unfold absorbed.
  destruct (fold_absorb_from_doc (t :: doc) (t :: doc) init) as [H1 H2].
  - apply incl_refl.
  - constructor.
  - cbn. congruence.
  - apply Forall_app. split; [exact H1 |].
    constructor; [| constructor]. apply H2. discriminate.
Qed.

(** ** More on the classifier *)

(** X9: ['named_entity'] is the answer for the tokens of an entity and for
    no other token: the table lists no tag under that key. *)
Theorem get_group_named_entity_iff (token : Token) :
  get_group token = "named_entity" <-> ent_type_ token <> "".
Proof.
  split.
  - unfold get_group. destruct (truthy (ent_type_ token)) eqn:He.
    + intros _. now apply truthy_true.
    + unfold DELAY_GROUPS, first_group.
      change (py_in (pos_ token) []) with false. cbv iota.
      repeat match goal with
             | |- (if ?b then _ else _) = _ -> _ =>
                 destruct b; [discriminate |]
             end.
      discriminate.
  - intros He. unfold get_group. apply truthy_true in He. now rewrite He.
Qed.

(** X10: the classifier answers ['punctuation'] for exactly the tokens that
    the merger treats as punctuation and that belong to no entity: the
    test of the merger and the table of the classifier agree. *)
Theorem get_group_punctuation_iff (token : Token) :
  get_group token = "punctuation" <->
  is_punct token = true /\ ent_type_ token = "".
Proof.
  split.
  - intros Hg. destruct (is_punct token) eqn:Hp.
    + split; [reflexivity |]. apply truthy_false.
      unfold get_group in Hg.
      destruct (truthy (ent_type_ token)); [discriminate | reflexivity].
    + now apply get_group_word in Hp.
  - intros [Hp He]. unfold get_group. rewrite He. cbn [truthy String.eqb negb].
    apply is_punct_In in Hp. simpl in Hp.
    destruct Hp as [E | [E | [E | []]]]; rewrite <- E; reflexivity.
Qed.

(** ** The table read in another order *)

Lemma first_group_cases (items : dict (list string)) (tag : string) :
  (exists g l, In (g, l) items /\ In tag l /\ first_group items tag = g) \/
  ((forall g l, In (g, l) items -> ~ In tag l) /\
   first_group items tag = "other").
Proof.
  induction items as [|[g0 l0] items IH]; cbn [first_group].
  - right. split; [intros g l [] | reflexivity].
  - destruct (py_in tag l0) eqn:H0.
    + left. exists g0, l0. apply py_in_In in H0. repeat split; auto.
      now left.
    + apply py_in_not_In in H0.
      destruct IH as [(g & l & Hin & Ht & E) | [Hnone E]].
      * left. exists g, l. repeat split; auto. now right.
      * right. split; [| assumption].
        intros g l [Heq | Hin]; [injection Heq as -> ->; assumption |].
        now apply Hnone in Hin.
Qed.

Lemma first_group_In (items : dict (list string)) (tag g : string)
    (l : list string) :
  disjoint_tags items -> In (g, l) items -> In tag l ->
  first_group items tag = g.
Proof.
  intros Hd Hin Ht.
  destruct (first_group_cases items tag)
    as [(g' & l' & Hin' & Ht' & E) | [Hnone _]].
  - rewrite E. exact (Hd g' l' g l tag Hin' Hin Ht' Ht).
  - now apply Hnone in Hin.
Qed.

Lemma DELAY_GROUPS_disjoint : disjoint_tags DELAY_GROUPS.
Proof.
  intros g1 l1 g2 l2 tag H1 H2 T1 T2. unfold DELAY_GROUPS in H1, H2.
  repeat (destruct H1 as [H1 | H1]; [injection H1 as <- <- |]);
    [ | | | | | destruct H1]; cbn [In] in T1;
    repeat (destruct T1 as [T1 | T1]; [subst tag |]); try contradiction;
    repeat (destruct H2 as [H2 | H2]; [injection H2 as <- <- |]);
    try contradiction; cbn [In] in T2;
    repeat (destruct T2 as [T2 | T2]; [try discriminate T2 |]);
    try contradiction; reflexivity.
Qed.

(** X11: the answer of the table does not depend on the order of its
    keys: no tag is listed under two of them, so the items of
    [DELAY_GROUPS] walked in any other order give the same group. *)
Theorem first_group_any_order (items : dict (list string)) (tag : string) :
  Permutation DELAY_GROUPS items ->
  first_group items tag = first_group DELAY_GROUPS tag.
Proof.
  intros Hperm.
  assert (Hd : disjoint_tags items).
  { intros g1 l1 g2 l2 t H1 H2.
    apply (DELAY_GROUPS_disjoint g1 l1 g2 l2 t);
      eapply Permutation_in; try eassumption; now apply Permutation_sym. }
  destruct (first_group_cases DELAY_GROUPS tag)
    as [(g & l & Hin & Ht & E) | [Hnone E]]; rewrite E.
  - apply (first_group_In items tag g l Hd); [| assumption].
    eapply Permutation_in; eassumption.
  - destruct (first_group_cases items tag)
      as [(g & l & Hin & Ht & _) | [_ E']]; [| assumption].
    exfalso. apply (Hnone g l); [| assumption].
    eapply Permutation_in; [apply Permutation_sym |]; eassumption.
Qed.

Lemma first_group_any_order_witness :
  first_group (rev DELAY_GROUPS) "ADV" = first_group DELAY_GROUPS "ADV".
Proof.
  apply (first_group_any_order (rev DELAY_GROUPS) "ADV").
  apply Permutation_rev.
Defined.

(** ** The request handler *)

Section HandlerFacts.

Variable isspace : ascii -> bool.
Variable nlp : string -> option (list Token).

Lemma lstrip_empty (s : string) :
  lstrip isspace s = "" <-> blank isspace s.
Proof.
  unfold blank. induction s as [|c s IH]; cbn [lstrip list_ascii_of_string].
  - split; [constructor | reflexivity].
  - destruct (isspace c) eqn:Hc.
    + rewrite IH. split; intros H.
      * now constructor.
      * now inversion H.
    + split; [discriminate |]. intros H. inversion H. congruence.
Qed.

Lemma lstrip_head (s : string) :
  lstrip isspace s = "" \/
  exists c r, lstrip isspace s = String c r /\ isspace c = false.
Proof.
  induction s as [|c s IH]; cbn [lstrip]; [now left |].
  destruct (isspace c) eqn:Hc; [exact IH |].
  right. now exists c, s.
Qed.

Lemma rstrip_head (c : ascii) (r : string) :
  isspace c = false -> rstrip isspace (String c r) <> "".
Proof.
  intros Hc. cbn [rstrip]. destruct (rstrip isspace r); [| discriminate].
  rewrite Hc. discriminate.
Qed.

Lemma strip_empty (s : string) :
  strip isspace s = "" <-> blank isspace s.
Proof.
  unfold strip. rewrite <- lstrip_empty.
  destruct (lstrip_head s) as [E | (c & r & E & Hc)]; rewrite E.
  - split; reflexivity.
  - split; [| discriminate]. intros H. now apply rstrip_head in H.
Qed.

(** What a response with status 200 tells about the request. *)
Lemma pos_tag_try_200 (req : option json) (r : Response) :
  pos_tag_try isspace nlp req = Some r ->
  status r = 200%Z ->
  exists fields text doc,
    req = Some (JObj fields) /\
    dict_find fields "text" = Some (JStr text) /\
    strip isspace text <> "" /\
    nlp text = Some doc /\
    r = (Tagged (fst (combine_with_punctuation doc))
                (snd (combine_with_punctuation doc)), 200%Z).
Proof.
  unfold pos_tag_try, status.
  destruct req as [data|]; cbn [bind]; [| discriminate].
  destruct (py_bool data) eqn:Hb; cbn [negb];
    [| intros [= <-]; discriminate].
  destruct data as [| b | z | f | s | items | fields];
    cbn [py_contains bind]; try discriminate.
  - destruct (contains "text" s); cbn [negb py_getitem bind];
      [discriminate | intros [= <-]; discriminate].
  - destruct (existsb (str_eq "text") items); cbn [negb py_getitem bind];
      [discriminate | intros [= <-]; discriminate].
  - destruct (dict_find fields "text") as [v|] eqn:Hf;
      cbn [negb py_getitem bind]; [| intros [= <-]; discriminate].
    rewrite Hf. cbn [bind].
    destruct v as [| b | z | f | text | items | fields'];
      cbn [py_strip py_nlp bind]; try discriminate.
    destruct (truthy (strip isspace text)) eqn:Ht; cbn [negb];
      [| intros [= <-]; discriminate].
    destruct (nlp text) as [doc|] eqn:Hn; cbn [bind]; [| discriminate].
    destruct (combine_with_punctuation doc) as [tokens groups] eqn:Hc.
    intros [= <-] _. exists fields, text, doc.
    apply truthy_true in Ht. rewrite Hc. cbn [fst snd]. auto.
Qed.

Lemma pos_tag_try_ok (fields : list (string * json)) (text : string)
    (doc : list Token) :
  dict_find fields "text" = Some (JStr text) ->
  strip isspace text <> "" ->
  nlp text = Some doc ->
  pos_tag_try isspace nlp (Some (JObj fields)) =
  Some (Tagged (fst (combine_with_punctuation doc))
               (snd (combine_with_punctuation doc)), 200%Z).
Proof.
  intros Hf Ht Hn. unfold pos_tag_try. cbn [bind].
  assert (Hb : py_bool (JObj fields) = true).
  { destruct fields; [discriminate Hf | reflexivity]. }
  rewrite Hb. cbn [negb py_contains bind]. rewrite Hf.
  cbn [negb py_getitem bind]. rewrite Hf. cbn [py_strip py_nlp bind].
  apply truthy_true in Ht. rewrite Ht, Hn. cbn [negb bind].
  now destruct (combine_with_punctuation doc).
Qed.


(** X13: an object whose ['text'] is a string of white space only, the
    empty string included, is answered 400 with 'Text cannot be empty';
    the pipeline has no part in the answer. *)
Theorem pos_tag_blank_text (fields : list (string * json)) (text : string) :
  dict_find fields "text" = Some (JStr text) ->
  blank isspace text ->
  pos_tag isspace nlp (Some (JObj fields)) =
  (Error "Text cannot be empty", 400%Z).
Proof.
  intros Hf Hblank. unfold pos_tag, pos_tag_try. cbn [bind].
  assert (Hb : py_bool (JObj fields) = true).
  { destruct fields; [discriminate Hf | reflexivity]. }
  rewrite Hb. cbn [negb py_contains bind]. rewrite Hf.
  cbn [negb py_getitem bind]. rewrite Hf. cbn [py_strip bind].
  apply strip_empty in Hblank. rewrite Hblank. reflexivity.
Qed.

(** X14: a body that is a JSON list with the element ['text'], or a JSON
    string in which ['text'] occurs, passes the membership test and then
    fails at the subscript: the answer is 500, not 400. *)
Theorem pos_tag_text_in_non_object (data : json) :
  (exists items, data = JList items /\ In (JStr "text") items) \/
  (exists s, data = JStr s /\ contains "text" s = true) ->
  pos_tag isspace nlp (Some data) = (Error "Internal server error", 500%Z).
Proof.
  intros [(items & -> & Hin) | (s & -> & Hs)];
    unfold pos_tag, pos_tag_try; cbn [bind].
  - assert (Hb : py_bool (JList items) = true)
      by (destruct items; [destruct Hin | reflexivity]).
    rewrite Hb. cbn [negb py_contains bind].
    assert (He : existsb (str_eq "text") items = true).
    { apply existsb_exists. exists (JStr "text"). split; [assumption |].
      reflexivity. }
    rewrite He. reflexivity.
  - assert (Hb : py_bool (JStr s) = true)
      by (destruct s; [discriminate Hs | reflexivity]).
    rewrite Hb. cbn [negb py_contains bind]. rewrite Hs. reflexivity.
Qed.

(** X15: an object whose ['text'] is not a string (a number, [null], a
    list, an object) is answered 500: the value has no [strip]. *)
Theorem pos_tag_text_not_str (fields : list (string * json)) (v : json) :
  dict_find fields "text" = Some v ->
  (forall s, v <> JStr s) ->
  pos_tag isspace nlp (Some (JObj fields)) =
  (Error "Internal server error", 500%Z).
Proof.
  intros Hf Hv. unfold pos_tag, pos_tag_try. cbn [bind].
  assert (Hb : py_bool (JObj fields) = true).
  { destruct fields; [discriminate Hf | reflexivity]. }
  rewrite Hb. cbn [negb py_contains bind]. rewrite Hf.
  cbn [negb py_getitem bind]. rewrite Hf. cbn [bind].
  destruct v; try reflexivity. now contradiction (Hv s).
Qed.

(** X16: in an answer with status 200 the two lists have the same
    length, and the merged texts put together are the texts of the
    tokens of the document the pipeline gave for the request's text. *)
Theorem pos_tag_200_payload (req : option json) (tokens : list string)
    (groups : list (option string)) :
  pos_tag isspace nlp req = (Tagged tokens groups, 200%Z) ->
  length tokens = length groups /\
  exists fields text doc,
    req = Some (JObj fields) /\
    dict_find fields "text" = Some (JStr text) /\
    nlp text = Some doc /\
    concat_texts tokens = concat_texts (texts doc).
Proof.
  unfold pos_tag.
  destruct (pos_tag_try isspace nlp req) as [r|] eqn:E; [| discriminate].
  intros ->.
  destruct (pos_tag_try_200 req _ E eq_refl)
    as (fields & text & doc & Hreq & Hf & _ & Hn & Hr).
  assert (Ht : tokens = fst (combine_with_punctuation doc)) by congruence.
  assert (Hg : groups = snd (combine_with_punctuation doc)) by congruence.
  subst tokens groups. clear Hr. rewrite combine_scan. cbn [fst snd].
  assert (Hinit : lockstep init).
  { unfold lockstep, init. cbn. repeat split; [constructor | congruence]. }
  destruct (scan_lockstep doc init Hinit) as (Hlen & _ & _).
  split; [assumption |]. exists fields, text, doc.
  repeat split; try assumption.
  destruct doc as [|t doc]; [reflexivity |].
  now rewrite scan_seen by discriminate.
Qed.

End HandlerFacts.

Lemma pos_tag_blank_text_witness :
  pos_tag ascii_isspace one_token_nlp (Some (JObj [("text", JStr "  ")])) =
  (Error "Text cannot be empty", 400%Z).
Proof.
  apply (pos_tag_blank_text ascii_isspace one_token_nlp
           [("text", JStr "  ")] "  ").
  - reflexivity.
  - repeat constructor.
Defined.

Lemma pos_tag_text_in_non_object_witness :
  pos_tag ascii_isspace one_token_nlp (Some (JList [JStr "text"])) =
  (Error "Internal server error", 500%Z).
Proof.
  apply (pos_tag_text_in_non_object ascii_isspace one_token_nlp
           (JList [JStr "text"])).
  left. exists [JStr "text"]. split; [reflexivity | now left].
Defined.

Lemma pos_tag_text_not_str_witness :
  pos_tag ascii_isspace one_token_nlp (Some (JObj [("text", JInt 5)])) =
  (Error "Internal server error", 500%Z).
Proof.
  apply (pos_tag_text_not_str ascii_isspace one_token_nlp
           [("text", JInt 5)] (JInt 5)).
  - reflexivity.
  - discriminate.
Defined.

Lemma pos_tag_200_payload_witness :
  length ["Hello"] = length [Some "content"] /\
  exists fields text doc,
    Some (JObj [("text", JStr "Hello")]) = Some (JObj fields) /\
    dict_find fields "text" = Some (JStr text) /\
    one_token_nlp text = Some doc /\
    concat_texts ["Hello"] = concat_texts (texts doc).
Proof.
  apply (pos_tag_200_payload ascii_isspace one_token_nlp
           (Some (JObj [("text", JStr "Hello")]))
           ["Hello"] [Some "content"]).
  reflexivity.
Defined.
